(** * rb-gateway: the schema-stitching gateway of [src/index.js]

    A shallow embedding of the gateway program and the properties of its
    merge-and-delegate pipeline.

    The program is a thin layer over [graphql-tools], [apollo-link-http]
    and [apollo-server].  Those libraries are not part of the program: the
    operations the program calls on them are the fields of the class
    [Library] below, and every theorem holds for every implementation of
    that class.  What the program itself does (the order of its calls, the
    values it passes, what it catches and what it logs) is translated
    line by line. *)

From stdpp Require Import base option list strings gmap.

Set Default Proof Using "Type".

(** ** JavaScript control flow *)

(** A thrown value.  [TypeError] is what the engine raises when a property
    is read from [undefined]; every other error comes out of a library and
    is identified by its message. *)
Inductive Exn : Type :=
  | TypeError
  | Raised (reason : string).

(** The state a promise eventually reaches.  [Pending] is a promise that
    never settles (an upstream that never answers). *)
Inductive Promise (A : Type) : Type :=
  | Fulfilled (a : A)
  | Rejected (e : Exn)
  | Pending.
Arguments Fulfilled {A} a.
Arguments Rejected {A} e.
Arguments Pending {A}.

(** How the evaluation of a piece of code ends: with a value, with a thrown
    value, or suspended for ever at an [await] on a pending promise. *)
Inductive Completion (A : Type) : Type :=
  | Normal (a : A)
  | Throw (e : Exn)
  | Suspended.
Arguments Normal {A} a.
Arguments Throw {A} e.
Arguments Suspended {A}.

(** ** The values the libraries exchange with the program *)

(** The types the program only passes around.  The resolution info is the
    one a merged schema hands to its resolvers, which always carries
    [mergeInfo]. *)
Class Domain : Type := {
  Schema : Type;      (* a schema obtained by introspection *)
  Unified : Type;     (* the schema mergeSchemas returns *)
  Value : Type;       (* data returned by the upstreams *)
  Args : Type;        (* the arguments of a field *)
  Ctx : Type;         (* the request context *)
  Info : Type;        (* the resolution info of a field *)
  MergeInfo : Type;   (* [info.mergeInfo] *)
  mergeInfo : Info → MergeInfo;
}.

(** [require('node-fetch')]: the one fetch implementation of the program. *)
Inductive Fetch : Type := node_fetch.

(** [new HttpLink({ uri, fetch })].  An entry of [process.env] is a string
    or [undefined], hence [option string]. *)
Record HttpLink : Type := new_HttpLink {
  uri : option string;
  fetch : Fetch;
}.

(** The parent object of a field: a JavaScript object. *)
Abbreviation Parent := (gmap string Value).

(** [process.env], after [require('dotenv').config()]. *)
Abbreviation Env := (gmap string string).

Section Gateway.
Context `{Domain}.

(** [makeRemoteExecutableSchema({ schema, link })]: an executable schema is
    identified by the options it was made from, the type system [schema]
    and the [link] it forwards every operation over.  [link] is the array
    read [links[index]], [undefined] out of range. *)
Record ProxySchema : Type := makeRemoteExecutableSchema {
  remote_schema : Schema;
  remote_link : option HttpLink;
}.

(** The options object handed to [info.mergeInfo.delegateToSchema].
    [d_schema] is the array read [schemas[i]]. *)
Record DelegateOptions : Type := {
  d_schema : option ProxySchema;
  d_operation : string;
  d_fieldName : string;
  d_args : Args;
  d_context : Ctx;
  d_info : Info;
}.

(** [new ApolloServer({ schema, introspection, playground })]. *)
Record ApolloServer : Type := new_ApolloServer {
  a_schema : Unified;
  a_introspection : bool;
  a_playground : bool;
}.

(** What the program does to the outside, in the order it does it. *)
Inductive Event : Type :=
  | Introspect (link : HttpLink) (linkContext : nat)
  | ConsoleLog (msg : string)
  | ConsoleError (err : Exn)
  | Delegate (mi : MergeInfo) (opts : DelegateOptions)
  | Construct (server : ApolloServer)
  | Listen (server : ApolloServer) (port : option string).

(** ** The monad of the program: a trace of events and a completion *)

Definition M (A : Type) : Type := (list Event * Completion A)%type.

Definition trace {A} (m : M A) : list Event := m.1.
Definition completion {A} (m : M A) : Completion A := m.2.

#[export] Instance M_ret : MRet M := λ A a, ([], Normal a).

#[export] Instance M_bind : MBind M := λ A B f m,
  match m.2 with
  | Normal a => (m.1 ++ (f a).1, (f a).2)
  | Throw e => (m.1, Throw e)
  | Suspended => (m.1, Suspended)
  end.

Definition emit (ev : Event) : M unit := ([ev], Normal ()).

Definition throw {A} (e : Exn) : M A := ([], Throw e).

(** [try { body } catch (e) { handler }]: only a thrown value reaches the
    handler. *)
Definition try_catch {A} (body : M A) (handler : Exn → M A) : M A :=
  match body.2 with
  | Throw e => (body.1 ++ (handler e).1, (handler e).2)
  | _ => body
  end.

(** An [async] function: the call itself always completes normally, with a
    promise that carries the outcome of the body.  The events of the body
    are placed at the call.  In the program every such promise is awaited,
    or given its [then], right where it is made, and the top level does
    nothing after its one call, so this is the order the events occur
    in. *)
Definition async {A} (body : M A) : M (Promise A) :=
  (body.1,
   Normal match body.2 with
          | Normal a => Fulfilled a
          | Throw e => Rejected e
          | Suspended => Pending
          end).

(** [await p]. *)
Definition await {A} (p : Promise A) : M A :=
  ([], match p with
       | Fulfilled a => Normal a
       | Rejected e => Throw e
       | Pending => Suspended
       end).

(** The first rejected promise of a list, in list order. *)
Fixpoint first_rejection {A} (ps : list (Promise A)) : option Exn :=
  match ps with
  | [] => None
  | Rejected e :: _ => Some e
  | _ :: ps' => first_rejection ps'
  end.

Definition fulfilled_value {A} (p : Promise A) : option A :=
  match p with Fulfilled a => Some a | _ => None end.

(** [Promise.all(ps)]: rejected as soon as one promise is rejected, else
    fulfilled with all the values, in order, once every promise is.  Which
    rejection wins depends on time; the program never looks at it. *)
Definition promise_all {A} (ps : list (Promise A)) : Promise (list A) :=
  match first_rejection ps with
  | Some e => Rejected e
  | None =>
      match mapM fulfilled_value ps with
      | Some vs => Fulfilled vs
      | None => Pending
      end
  end.

(** [p.then(callback)]: the callback runs only when [p] is fulfilled. *)
Definition promise_then {A B} (p : Promise A) (callback : A → M B) : M (Promise B) :=
  match p with
  | Fulfilled a => async (callback a)
  | Rejected e => mret (Rejected e)
  | Pending => mret Pending
  end.

(** Running a list of computations from left to right. *)
Fixpoint sequence {A} (ms : list (M A)) : M (list A) :=
  match ms with
  | [] => mret []
  | m :: ms' => x ← m; xs ← sequence ms'; mret (x :: xs)
  end.

(** [array.map(callback)]: the callback receives the element and its
    index.  In [links.map(introspectSchema)] the index is therefore the
    second argument of [introspectSchema], its [linkContext]. *)
Definition array_map {A B} (callback : A → nat → M B) (array : list A) : M (list B) :=
  sequence (imap (λ index x, callback x index) array).

Definition console_log (msg : string) : M unit := emit (ConsoleLog msg).
Definition console_error (err : Exn) : M unit := emit (ConsoleError err).

(** ** The resolver map and the libraries *)

(** One link resolver: [{ fragment, resolve(parent, args, context, info) }]. *)
Record LinkResolver : Type := {
  fragment : string;
  resolve : Parent → Args → Ctx → Info → M (Promise Value);
}.

(** [{ schemas, resolvers }], the options of [mergeSchemas].  [schemas]
    holds executable schemas and type definition strings. *)
Record MergeOptions : Type := {
  m_schemas : list (ProxySchema + string);
  m_resolvers : gmap string (gmap string LinkResolver);
}.

(** What the program calls on the libraries. *)
Class Library : Type := {
  (* graphql-tools, [introspectSchema(link, linkContext)]: an async function *)
  introspectSchema : HttpLink → nat → Promise Schema;
  (* graphql-tools, [mergeInfo.delegateToSchema(options)]: returns a promise *)
  delegateToSchema : MergeInfo → DelegateOptions → Promise Value;
  (* graphql-tools, [mergeSchemas(options)]: returns the schema or throws *)
  mergeSchemas : MergeOptions → Exn + Unified;
  (* apollo-server, [server.listen({ port })]: a promise of the server's url *)
  listen : ApolloServer → option string → Promise string;
}.

Context `{Library}.

(** A call of each library operation, recorded in the trace. *)
Definition call_introspectSchema (link : HttpLink) (index : nat) : M (Promise Schema) :=
  emit (Introspect link index);; mret (introspectSchema link index).

Definition call_delegateToSchema (mi : MergeInfo) (opts : DelegateOptions) : M (Promise Value) :=
  emit (Delegate mi opts);; mret (delegateToSchema mi opts).

Definition call_mergeSchemas (opts : MergeOptions) : M Unified :=
  match mergeSchemas opts with
  | inl e => throw e
  | inr schema => mret schema
  end.

Definition construct_ApolloServer (server : ApolloServer) : M ApolloServer :=
  emit (Construct server);; mret server.

Definition call_listen (server : ApolloServer) (port : option string) : M (Promise string) :=
  emit (Listen server port);; mret (listen server port).

(** ** The program, [src/index.js] *)

(** [const REMOTE_SCHEMA_URIS = [ ... ]] *)
Definition REMOTE_SCHEMA_URIS (env : Env) : list (option string) :=
  [ env !! "GRAPHQL_CART_SERVICE_URI";
    env !! "GRAPHQL_CHECKOUT_SERVICE_URI";
    env !! "GRAPHQL_USER_SERVICE_URI" ].

Definition error_creating_schemas : string :=
  "Error creating remote executable schemas".

(** [const createRemoteExecutableSchemas = async uris => { try ... catch ... }].
    The [catch] block returns nothing: the promise is fulfilled with
    [undefined], here [None]. *)
Definition createRemoteExecutableSchemas (uris : list (option string))
  : M (Promise (option (list ProxySchema))) :=
  async (try_catch
    (let links := (λ uri, {| uri := uri; fetch := node_fetch |}) <$> uris in
     remoteSchemaPromises ← array_map call_introspectSchema links;
     remoteSchemas ← await (promise_all remoteSchemaPromises);
     mret (Some (imap (λ index schema,
                   {| remote_schema := schema; remote_link := links !! index |})
                 remoteSchemas)))
    (λ error, console_log error_creating_schemas;; mret None)).

Definition newline : string := String (Ascii.ascii_of_nat 10) EmptyString.

(** [const linkTypeDefs = `...`] *)
Definition linkTypeDefs : string :=
  newline +:+
  "  extend type User {" +:+ newline +:+
  "    cart: Cart!" +:+ newline +:+
  "    orders: [Order!]!" +:+ newline +:+
  "  }" +:+ newline.

Definition user_id_fragment : string := "... on User { id }".

(** [const createLinkResolvers = schemas => ({ User: { cart, orders } })] *)
Definition createLinkResolvers (schemas : list ProxySchema)
  : gmap string (gmap string LinkResolver) :=
  {[ "User" :=
     {[ "cart" :=
          {| fragment := user_id_fragment;
             resolve := λ _ args context info,
               call_delegateToSchema (mergeInfo info)
                 {| d_schema := schemas !! 0;
                    d_operation := "query";
                    d_fieldName := "cartForCurrentUser";
                    d_args := args;
                    d_context := context;
                    d_info := info |} |};
        "orders" :=
          {| fragment := user_id_fragment;
             resolve := λ _ args context info,
               call_delegateToSchema (mergeInfo info)
                 {| d_schema := schemas !! 1;
                    d_operation := "query";
                    d_fieldName := "ordersForCurrentCustomer";
                    d_args := args;
                    d_context := context;
                    d_info := info |} |} ]} ]}.

(** [const createNewSchema = async uris => { ... }].  When the awaited
    value is [undefined], [schemas.concat] is a property read on
    [undefined] and throws before [mergeSchemas] is called; otherwise
    [schemas] is an array, the only case in which [createLinkResolvers]
    is reached. *)
Definition createNewSchema (uris : list (option string)) : M (Promise Unified) :=
  async (
    promise ← createRemoteExecutableSchemas uris;
    schemas ← await promise;
    match schemas with
    | None => throw TypeError
    | Some schemas =>
        call_mergeSchemas
          {| m_schemas := (inl <$> schemas) ++ [inr linkTypeDefs];
             m_resolvers := createLinkResolvers schemas |}
    end).

(** [const runServer = async () => { ... }] *)
Definition runServer (env : Env) : M (Promise unit) :=
  async (
    promise ← createNewSchema (REMOTE_SCHEMA_URIS env);
    schema ← await promise;
    server ← construct_ApolloServer
      {| a_schema := schema; a_introspection := true; a_playground := false |};
    listening ← call_listen server (env !! "PORT");
    _ ← promise_then listening
          (λ url, console_log ("Eagles soaring high at " +:+ url));
    mret ()).

(** The top level of the module: [try { runServer() } catch (err) { console.error(err) }] *)
Definition main (env : Env) : M unit :=
  try_catch (_ ← runServer env; mret ()) (λ err, console_error err).

(** ** Reading a trace *)

(** The delegated calls of a trace, in order. *)
Definition delegated (t : list Event) : list (MergeInfo * DelegateOptions) :=
  omap (λ ev, match ev with Delegate mi o => Some (mi, o) | _ => None end) t.

(** The servers constructed in a trace. *)
Definition constructed (t : list Event) : list ApolloServer :=
  omap (λ ev, match ev with Construct s => Some s | _ => None end) t.

(** The servers told to listen in a trace. *)
Definition listening (t : list Event) : list ApolloServer :=
  omap (λ ev, match ev with Listen s _ => Some s | _ => None end) t.

(** What reached [console.error] in a trace. *)
Definition stderr (t : list Event) : list Exn :=
  omap (λ ev, match ev with ConsoleError e => Some e | _ => None end) t.

(** The resolver of field [field] of type [type] in a resolver map. *)
Definition link_resolver (resolvers : gmap string (gmap string LinkResolver))
    (type field : string) : option LinkResolver :=
  resolvers !! type ≫= λ fields, fields !! field.

(** The options of a delegated [query] against the schema at [index]. *)
Definition delegation (schemas : list ProxySchema) (index : nat) (fieldName : string)
    (args : Args) (context : Ctx) (info : Info) : DelegateOptions :=
  {| d_schema := schemas !! index;
     d_operation := "query";
     d_fieldName := fieldName;
     d_args := args;
     d_context := context;
     d_info := info |}.

(** The server the program constructs from a merged schema. *)
Definition gateway_server (schema : Unified) : ApolloServer :=
  {| a_schema := schema; a_introspection := true; a_playground := false |}.

(** The link the program builds for one URI. *)
Definition link_of (u : option string) : HttpLink :=
  {| uri := u; fetch := node_fetch |}.

(** The introspection calls the program issues for a list of URIs. *)
Definition introspections (uris : list (option string)) : list Event :=
  imap (λ index u, Introspect (link_of u) index) uris.

(** The promises [links.map(introspectSchema)] holds for a list of URIs. *)
Definition introspection_promises (uris : list (option string)) : list (Promise Schema) :=
  imap (λ index u, introspectSchema (link_of u) index) uris.

(** What reached [console.log] in a trace. *)
Definition stdout (t : list Event) : list string :=
  omap (λ ev, match ev with ConsoleLog s => Some s | _ => None end) t.

End Gateway.

(** * Test doubles

    A small implementation of the libraries, to run the program on:
    the upstreams listed in [reachable] answer the introspection query,
    every other one refuses the connection. *)
Module Doubles.

#[export] Instance domain : Domain :=
  {| Schema := string;
     Unified := list string;
     Value := string;
     Args := gmap string string;
     Ctx := string;
     Info := nat;
     MergeInfo := nat;
     mergeInfo := λ info, info |}.

Definition describe (part : @ProxySchema domain + string) : string :=
  match part with
  | inl proxy => @remote_schema domain proxy
  | inr typeDefs => "link type defs"
  end.

Definition library (reachable : list string) : @Library domain :=
  {| introspectSchema := λ link _,
       match uri link with
       | Some u =>
           if bool_decide (u ∈ reachable)
           then Fulfilled ("schema of " +:+ u)
           else Rejected (Raised "ECONNREFUSED")
       | None => Rejected (Raised "Only absolute URLs are supported")
       end;
     delegateToSchema := λ _ opts,
       match @d_schema domain opts with
       | Some proxy =>
           Fulfilled (@d_fieldName domain opts +:+ " from " +:+
                      @remote_schema domain proxy)
       | None => Rejected (Raised "no schema to delegate to")
       end;
     mergeSchemas := λ opts, inr (describe <$> @m_schemas domain opts);
     listen := λ _ port,
       Fulfilled ("http://localhost:" +:+ default "4000" port) |}.

(** A complete configuration. *)
Definition env : gmap string string :=
  {[ "GRAPHQL_CART_SERVICE_URI" := "http://cart/graphql";
     "GRAPHQL_CHECKOUT_SERVICE_URI" := "http://checkout/graphql";
     "GRAPHQL_USER_SERVICE_URI" := "http://user/graphql";
     "PORT" := "8080" ]}.

Definition uris : list (option string) :=
  [ Some "http://cart/graphql"; Some "http://checkout/graphql";
    Some "http://user/graphql" ].

(** Every upstream is up. *)
Definition all_up : @Library domain :=
  library [ "http://cart/graphql"; "http://checkout/graphql"; "http://user/graphql" ].

(** The checkout service is down. *)
Definition checkout_down : @Library domain :=
  library [ "http://cart/graphql"; "http://user/graphql" ].

(** Every upstream is up, and the merge of their schemas fails. *)
Definition merge_conflict : @Library domain :=
  {| introspectSchema := @introspectSchema domain all_up;
     delegateToSchema := @delegateToSchema domain all_up;
     mergeSchemas := λ _, inl (Raised "schema merge failure");
     listen := @listen domain all_up |}.

(** Every upstream is up, and the port cannot be bound. *)
Definition port_in_use : @Library domain :=
  {| introspectSchema := @introspectSchema domain all_up;
     delegateToSchema := @delegateToSchema domain all_up;
     mergeSchemas := @mergeSchemas domain all_up;
     listen := λ _ _, Rejected (Raised "EADDRINUSE") |}.

(** The user service accepts the connection and never answers. *)
Definition user_never_answers : @Library domain :=
  {| introspectSchema := λ link index,
       if bool_decide (uri link = Some "http://user/graphql")
       then Pending
       else @introspectSchema domain all_up link index;
     delegateToSchema := @delegateToSchema domain all_up;
     mergeSchemas := @mergeSchemas domain all_up;
     listen := @listen domain all_up |}.

(** A configuration with no cart service and an empty checkout URI. *)
Definition env_incomplete : gmap string string :=
  {[ "GRAPHQL_CHECKOUT_SERVICE_URI" := EmptyString;
     "GRAPHQL_USER_SERVICE_URI" := "http://user/graphql" ]}.

Definition proxy (u : string) : @ProxySchema domain :=
  {| remote_schema := ("schema of " +:+ u) : @Schema domain;
     remote_link := Some {| uri := Some u; fetch := node_fetch |} |}.

Definition proxies : list (@ProxySchema domain) :=
  [ proxy "http://cart/graphql"; proxy "http://checkout/graphql";
    proxy "http://user/graphql" ].



End Doubles.

(** * Properties *)

Section Properties.
Context `{Library}.

(** ** Laws of the monad *)

Lemma bind_normal {A B} (t : list Event) (a : A) (f : A → M B) :
  ((t, Normal a) : M A) ≫= f = (t ++ (f a).1, (f a).2).
Proof. reflexivity. Qed.

Lemma bind_throw {A B} (t : list Event) (e : Exn) (f : A → M B) :
  ((t, Throw e) : M A) ≫= f = (t, Throw e).
Proof. reflexivity. Qed.

Lemma bind_suspended {A B} (t : list Event) (f : A → M B) :
  ((t, Suspended) : M A) ≫= f = (t, Suspended).
Proof. reflexivity. Qed.

Lemma async_normal {A} (body : M A) : ∃ p, (async body).2 = Normal p.
Proof. unfold async. simpl. eauto. Qed.

(** A [try] around the call of an async function never runs its handler. *)
Lemma try_catch_async {A B} (body : M A) (k : Promise A → M B) (handler : Exn → M B) :
  (∀ p, ∃ b, (k p).2 = Normal b) →
  try_catch (async body ≫= k) handler = async body ≫= k.
Proof.
  intros Hk. unfold try_catch, async, mbind, M_bind. simpl.
  by destruct (Hk (match body.2 with
                   | Normal a => Fulfilled a
                   | Throw e => Rejected e
                   | Suspended => Pending
                   end)) as [b ->].
Qed.

(** ** [Promise.all] *)

Lemma first_rejection_Some {A} (ps : list (Promise A)) (e : Exn) :
  Rejected e ∈ ps → is_Some (first_rejection ps).
Proof.
  induction ps as [|p ps IH]; intros Hin.
  - by apply elem_of_nil in Hin.
  - apply elem_of_cons in Hin as [<-|Hin]; [by eexists|].
    destruct p; simpl; eauto.
Qed.

Lemma promise_all_rejected {A} (ps : list (Promise A)) (e : Exn) :
  Rejected e ∈ ps → ∃ e', promise_all ps = Rejected e'.
Proof.
  intros [e' He']%first_rejection_Some. exists e'.
  unfold promise_all. by rewrite He'.
Qed.

Lemma promise_all_fmap_Fulfilled {A} (vs : list A) :
  promise_all (Fulfilled <$> vs) = Fulfilled vs.
Proof.
  unfold promise_all.
  assert (first_rejection (Fulfilled <$> vs) = None) as ->
    by (induction vs; simpl; auto).
  assert (mapM fulfilled_value (Fulfilled <$> vs) = Some vs) as ->; [|done].
  apply mapM_Some. induction vs; constructor; auto.
Qed.

Lemma all_fulfilled_fmap {A} (ps : list (Promise A)) :
  (∀ p, p ∈ ps → ∃ v, p = Fulfilled v) → ∃ vs, ps = Fulfilled <$> vs.
Proof.
  induction ps as [|p ps IH]; intros Hall.
  - by exists [].
  - destruct (Hall p) as [v ->]; [left|].
    destruct IH as [vs ->]; [intros q Hq; apply Hall; by right|].
    by exists (v :: vs).
Qed.

Lemma promise_all_Fulfilled_inv {A} (ps : list (Promise A)) (vs : list A) :
  promise_all ps = Fulfilled vs → ps = Fulfilled <$> vs.
Proof.
  unfold promise_all. destruct (first_rejection ps); [done|].
  destruct (mapM fulfilled_value ps) as [ws|] eqn:Hm; [|done].
  intros [= <-]. apply mapM_Some in Hm.
  induction Hm as [|p w ps ws Hp Hrest IH]; [done|].
  destruct p; by simplify_eq/=.
Qed.

(** ** The remote schema loader *)

Lemma sequence_introspect (g : nat → nat) (links : list HttpLink) :
  sequence (imap (λ index link, call_introspectSchema link (g index)) links) =
  (imap (λ index link, Introspect link (g index)) links,
   Normal (imap (λ index link, introspectSchema link (g index)) links)).
Proof.
  revert g. induction links as [|link links IH]; intros g; [done|].
  rewrite !imap_cons. simpl.
  change (sequence (imap ((λ index l, call_introspectSchema l (g index)) ∘ S) links))
    with (sequence (imap (λ index l, call_introspectSchema l ((g ∘ S) index)) links)).
  rewrite (IH (g ∘ S)).
  unfold mbind, M_bind, mret, M_ret. simpl. by rewrite app_nil_r.
Qed.

Lemma array_map_introspect (uris : list (option string)) :
  array_map call_introspectSchema (link_of <$> uris) =
  (introspections uris, Normal (introspection_promises uris)).
Proof.
  unfold array_map. rewrite (sequence_introspect id).
  unfold introspections, introspection_promises. by rewrite !imap_fmap.
Qed.

(** The three ways a call of [createRemoteExecutableSchemas] ends, by the
    outcome of [Promise.all]. *)
Lemma createRemoteExecutableSchemas_cases (uris : list (option string)) :
  createRemoteExecutableSchemas uris =
  match promise_all (introspection_promises uris) with
  | Fulfilled remoteSchemas =>
      (introspections uris,
       Normal (Fulfilled (Some (imap (λ index schema,
         {| remote_schema := schema;
            remote_link := (link_of <$> uris) !! index |}) remoteSchemas))))
  | Rejected _ =>
      (introspections uris ++ [ConsoleLog error_creating_schemas],
       Normal (Fulfilled None))
  | Pending => (introspections uris, Normal Pending)
  end.
Proof.
  unfold createRemoteExecutableSchemas.
  change ((λ u, {| uri := u; fetch := node_fetch |}) <$> uris) with (link_of <$> uris).
  rewrite array_map_introspect, bind_normal.
  destruct (promise_all (introspection_promises uris)) as [ss|e|];
    unfold async, try_catch; simpl; by rewrite ?app_nil_r.
Qed.

Lemma introspection_promises_lookup (uris : list (option string)) (i : nat) (u : option string) :
  uris !! i = Some u →
  introspection_promises uris !! i = Some (introspectSchema (link_of u) i).
Proof.
  intros Hu. unfold introspection_promises. by rewrite list_lookup_imap, Hu.
Qed.

Lemma introspections_lookup (uris : list (option string)) (i : nat) (u : option string) :
  uris !! i = Some u →
  introspections uris !! i = Some (Introspect (link_of u) i).
Proof.
  intros Hu. unfold introspections. by rewrite list_lookup_imap, Hu.
Qed.

Lemma introspections_only_calls (uris : list (option string)) (j : nat) (msg : string) :
  introspections uris !! j ≠ Some (ConsoleLog msg).
Proof.
  unfold introspections. rewrite list_lookup_imap.
  by destruct (uris !! j).
Qed.

Lemma length_introspections (uris : list (option string)) :
  length (introspections uris) = length uris.
Proof. apply length_imap. Qed.

Lemma length_introspection_promises (uris : list (option string)) :
  length (introspection_promises uris) = length uris.
Proof. apply length_imap. Qed.

(** All or nothing: a list that the loader returns has one proxy schema
    for each URI. *)
Lemma loader_all_or_nothing (uris : list (option string)) (proxies : list ProxySchema) :
  completion (createRemoteExecutableSchemas uris) = Normal (Fulfilled (Some proxies)) →
  length proxies = length uris.
Proof.
  rewrite createRemoteExecutableSchemas_cases.
  destruct (promise_all (introspection_promises uris)) as [ss|e|] eqn:Hall;
    simpl; intros [= <-].
  apply promise_all_Fulfilled_inv in Hall.
  rewrite length_imap, <-(length_fmap Fulfilled ss), <-Hall.
  apply length_introspection_promises.
Qed.

(** C2. If the introspection of one upstream fails, the failure is caught
    inside [createRemoteExecutableSchemas]: after the introspection calls
    the fixed message is logged, and the promise the function returns is
    fulfilled with [undefined]; no list of proxy schemas, partial or not,
    is returned. *)
Theorem C2_failed_introspection_gives_undefined
    (uris : list (option string)) (i : nat) (u : option string) (e : Exn) :
  uris !! i = Some u →
  introspectSchema (link_of u) i = Rejected e →
  createRemoteExecutableSchemas uris =
    (introspections uris ++ [ConsoleLog "Error creating remote executable schemas"],
     Normal (Fulfilled None)).
Proof.
  intros Hu Hrej.
  destruct (promise_all_rejected (introspection_promises uris) e) as [e' He'].
  { apply list_elem_of_lookup. exists i.
    by rewrite (introspection_promises_lookup uris i u), Hrej. }
  by rewrite createRemoteExecutableSchemas_cases, He'.
Qed.

(** C4. If every introspection succeeds, [createRemoteExecutableSchemas]
    returns (as the value of its promise) a list with one proxy schema for
    each URI, in the order of the URIs: the proxy schema at index [i]
    forwards over the HTTP link made from the URI at index [i], and carries
    the schema that the introspection over that link returned. *)
Theorem C4_proxy_schemas_follow_uris (uris : list (option string)) :
  (∀ i u, uris !! i = Some u → ∃ s, introspectSchema (link_of u) i = Fulfilled s) →
  ∃ proxies : list ProxySchema,
    createRemoteExecutableSchemas uris =
      (introspections uris, Normal (Fulfilled (Some proxies))) ∧
    length proxies = length uris ∧
    ∀ i u, uris !! i = Some u →
      ∃ proxy, proxies !! i = Some proxy ∧
        remote_link proxy = Some {| uri := u; fetch := node_fetch |} ∧
        introspectSchema {| uri := u; fetch := node_fetch |} i =
          Fulfilled (remote_schema proxy).
Proof.
  intros Hok.
  destruct (all_fulfilled_fmap (introspection_promises uris)) as [ss Hss].
  { intros p [i Hi]%list_elem_of_lookup.
    destruct (uris !! i) as [u|] eqn:Hu.
    - rewrite (introspection_promises_lookup uris i u Hu) in Hi.
      injection Hi as <-. by apply Hok.
    - apply lookup_lt_Some in Hi. apply lookup_ge_None in Hu.
      rewrite length_introspection_promises in Hi. lia. }
  eexists. split; [|split].
  - by rewrite createRemoteExecutableSchemas_cases, Hss, promise_all_fmap_Fulfilled.
  - rewrite length_imap, <-(length_fmap Fulfilled ss), <-Hss.
    apply length_introspection_promises.
  - intros i u Hu.
    pose proof (introspection_promises_lookup uris i u Hu) as Hp.
    rewrite Hss, list_lookup_fmap in Hp.
    destruct (ss !! i) as [s|] eqn:Hs; [|done]. injection Hp as Hp.
    eexists. split; [by rewrite list_lookup_imap, Hs|]. simpl.
    by rewrite list_lookup_fmap, Hu.
Qed.

(** C10. [createRemoteExecutableSchemas] does not validate its input.
    Whatever stands at index [i] of the list, [undefined] and the empty
    string included, a link is built from it and the introspection call
    over that link is the [i]-th thing the function does; the call of the
    function completes normally, and the only error branch there is, the
    one that logs, comes after all the introspection calls. *)
Theorem C10_no_validation_of_uris
    (uris : list (option string)) (i : nat) (u : option string) :
  uris !! i = Some u →
  trace (createRemoteExecutableSchemas uris) !! i =
    Some (Introspect {| uri := u; fetch := node_fetch |} i) ∧
  (∃ promise, completion (createRemoteExecutableSchemas uris) = Normal promise) ∧
  ∀ j msg, trace (createRemoteExecutableSchemas uris) !! j = Some (ConsoleLog msg) →
    length uris ≤ j.
Proof.
  intros Hu. pose proof (introspections_lookup uris i u Hu) as Hi.
  assert (∃ rest, trace (createRemoteExecutableSchemas uris) = introspections uris ++ rest)
    as [rest Hrest].
  { rewrite createRemoteExecutableSchemas_cases.
    destruct (promise_all _); simpl; eauto using app_nil_r. }
  split; [|split].
  - rewrite Hrest. by apply lookup_app_l_Some.
  - apply async_normal.
  - intros j msg. rewrite Hrest. intros Hj.
    destruct (decide (j < length uris)) as [Hlt|]; [|lia].
    rewrite lookup_app_l in Hj by (by rewrite length_introspections).
    by apply introspections_only_calls in Hj.
Qed.

(** ** The link resolvers *)

Lemma link_resolver_cart (schemas : list ProxySchema) :
  ∃ cart, link_resolver (createLinkResolvers schemas) "User" "cart" = Some cart ∧
    fragment cart = user_id_fragment ∧
    ∀ parent args context info,
      resolve cart parent args context info =
      call_delegateToSchema (mergeInfo info)
        (delegation schemas 0 "cartForCurrentUser" args context info).
Proof. eexists. split; [reflexivity|]. by split. Qed.

Lemma link_resolver_orders (schemas : list ProxySchema) :
  ∃ orders, link_resolver (createLinkResolvers schemas) "User" "orders" = Some orders ∧
    fragment orders = user_id_fragment ∧
    ∀ parent args context info,
      resolve orders parent args context info =
      call_delegateToSchema (mergeInfo info)
        (delegation schemas 1 "ordersForCurrentCustomer" args context info).
Proof. eexists. split; [reflexivity|]. by split. Qed.

(** The resolver map has the two entries [User.cart] and [User.orders]
    and no other. *)
Lemma link_resolver_inv (schemas : list ProxySchema) (type field : string) (r : LinkResolver) :
  link_resolver (createLinkResolvers schemas) type field = Some r →
  type = "User" ∧ (field = "cart" ∨ field = "orders").
Proof.
  unfold link_resolver, createLinkResolvers. intros Hr.
  destruct (decide (type = "User")) as [->|Hty].
  - split; [done|]. rewrite lookup_singleton_eq in Hr. simpl in Hr.
    destruct (decide (field = "cart")) as [->|Hc]; [by left|].
    rewrite lookup_insert_ne in Hr by done.
    destruct (decide (field = "orders")) as [->|Ho]; [by right|].
    by rewrite lookup_singleton_ne in Hr.
  - by rewrite lookup_singleton_ne in Hr.
Qed.


(** C1. In the resolver map built from any list of proxy schemas, a
    resolution of [User.cart] issues one delegated call, a [query]
    operation named [cartForCurrentUser] against the schema at index 0
    of the list, and a resolution of [User.orders] issues one delegated
    call, a [query] operation named [ordersForCurrentCustomer] against the
    schema at index 1. *)
Theorem C1_link_resolvers_delegate_by_position
    (schemas : list ProxySchema) (parent : Parent) (args : Args) (context : Ctx)
    (info : Info) :
  (∃ cart opts,
     link_resolver (createLinkResolvers schemas) "User" "cart" = Some cart ∧
     delegated (trace (resolve cart parent args context info)) =
       [(mergeInfo info, opts)] ∧
     d_schema opts = schemas !! 0 ∧
     d_operation opts = "query" ∧
     d_fieldName opts = "cartForCurrentUser") ∧
  (∃ orders opts,
     link_resolver (createLinkResolvers schemas) "User" "orders" = Some orders ∧
     delegated (trace (resolve orders parent args context info)) =
       [(mergeInfo info, opts)] ∧
     d_schema opts = schemas !! 1 ∧
     d_operation opts = "query" ∧
     d_fieldName opts = "ordersForCurrentCustomer").
Proof.
  split.
  - destruct (link_resolver_cart schemas) as (cart & Hcart & _ & Hres).
    exists cart. eexists. split; [done|]. by rewrite Hres.
  - destruct (link_resolver_orders schemas) as (orders & Horders & _ & Hres).
    exists orders. eexists. split; [done|]. by rewrite Hres.
Qed.



(** C9. The resolvers of [User.cart] and [User.orders] do not read the
    parent object: with the same arguments, context and info, two
    resolutions on any two parents issue the same call and end the same
    way. *)
Theorem C9_parent_does_not_interfere
    (schemas : list ProxySchema) (parent1 parent2 : Parent)
    (args : Args) (context : Ctx) (info : Info) :
  (∃ cart, link_resolver (createLinkResolvers schemas) "User" "cart" = Some cart ∧
     resolve cart parent1 args context info = resolve cart parent2 args context info) ∧
  (∃ orders, link_resolver (createLinkResolvers schemas) "User" "orders" = Some orders ∧
     resolve orders parent1 args context info = resolve orders parent2 args context info).
Proof.
  split.
  - destruct (link_resolver_cart schemas) as (cart & Hcart & _ & Hres).
    exists cart. by rewrite !Hres.
  - destruct (link_resolver_orders schemas) as (orders & Horders & _ & Hres).
    exists orders. by rewrite !Hres.
Qed.

(** ** Startup *)

(** Merging adds no event of its own to the trace. *)
Lemma createNewSchema_trace (uris : list (option string)) :
  trace (createNewSchema uris) = trace (createRemoteExecutableSchemas uris).
Proof.
  unfold createNewSchema. rewrite createRemoteExecutableSchemas_cases.
  destruct (promise_all (introspection_promises uris)) as [ss|e|]; simpl;
    rewrite ?app_nil_r; try done.
  unfold call_mergeSchemas. by destruct (mergeSchemas _); simpl; rewrite app_nil_r.
Qed.

Lemma createNewSchema_normal (uris : list (option string)) :
  ∃ promise, completion (createNewSchema uris) = Normal promise.
Proof. apply async_normal. Qed.

(** The ways [runServer] ends, by the promise of [createNewSchema]. *)
Lemma runServer_cases (env : Env) :
  runServer env =
  match completion (createNewSchema (REMOTE_SCHEMA_URIS env)) with
  | Normal (Fulfilled schema) =>
      let server := gateway_server schema in
      (trace (createNewSchema (REMOTE_SCHEMA_URIS env)) ++
         [Construct server; Listen server (env !! "PORT")] ++
         match listen server (env !! "PORT") with
         | Fulfilled url => [ConsoleLog ("Eagles soaring high at " +:+ url)]
         | _ => []
         end,
       Normal (Fulfilled ()))
  | Normal (Rejected e) =>
      (trace (createNewSchema (REMOTE_SCHEMA_URIS env)), Normal (Rejected e))
  | _ => (trace (createNewSchema (REMOTE_SCHEMA_URIS env)), Normal Pending)
  end.
Proof.
  destruct (createNewSchema_normal (REMOTE_SCHEMA_URIS env)) as [promise Hp].
  unfold runServer, completion, trace in *.
  destruct (createNewSchema (REMOTE_SCHEMA_URIS env)) as [t c]. simpl in Hp. subst c.
  rewrite bind_normal. destruct promise as [schema|e|]; simpl; rewrite ?app_nil_r; try done.
  unfold gateway_server.
  destruct (listen _ _) as [url|e|]; simpl; by rewrite ?app_nil_r.
Qed.

(** The call [runServer()] at the top level completes normally whatever
    happens inside: the [catch] block around it is never entered. *)
Lemma main_runServer (env : Env) :
  main env = (trace (runServer env), Normal ()).
Proof.
  unfold main, runServer. rewrite try_catch_async by (intros p; by eexists).
  unfold async at 1. rewrite bind_normal. simpl. by rewrite app_nil_r.
Qed.

Lemma omap_none {A B} (f : A → option B) (l : list A) :
  (∀ i x, l !! i = Some x → f x = None) → omap f l = [].
Proof.
  induction l as [|a l IH]; intros Hnone; [done|]. simpl.
  rewrite (Hnone 0 a eq_refl). apply IH. intros i x Hi. by apply (Hnone (S i)).
Qed.

Lemma introspections_shape (uris : list (option string)) (i : nat) (ev : Event) :
  introspections uris !! i = Some ev → ∃ link, ev = Introspect link i.
Proof.
  unfold introspections. rewrite list_lookup_imap.
  destruct (uris !! i); intros [= <-]. eauto.
Qed.

(** The loader only introspects and logs. *)
Lemma loader_trace_quiet (uris : list (option string)) :
  stderr (trace (createRemoteExecutableSchemas uris)) = [] ∧
  constructed (trace (createRemoteExecutableSchemas uris)) = [] ∧
  listening (trace (createRemoteExecutableSchemas uris)) = [].
Proof.
  assert (stderr (introspections uris) = [] ∧ constructed (introspections uris) = [] ∧
          listening (introspections uris) = []) as (He & Hc & Hl).
  { repeat split; apply omap_none;
      intros i ev [link ->]%introspections_shape; done. }
  rewrite createRemoteExecutableSchemas_cases.
  unfold stderr, constructed, listening in *.
  destruct (promise_all _); simpl; rewrite ?omap_app, ?He, ?Hc, ?Hl; done.
Qed.

(** What [main] writes to standard error, which servers it constructs
    and which it tells to listen. *)
Lemma main_observations (env : Env) :
  stderr (trace (main env)) = [] ∧
  constructed (trace (main env)) =
    match completion (createNewSchema (REMOTE_SCHEMA_URIS env)) with
    | Normal (Fulfilled schema) => [gateway_server schema]
    | _ => []
    end ∧
  listening (trace (main env)) = constructed (trace (main env)).
Proof.
  rewrite main_runServer. change (trace (?t, _)) with t.
  rewrite runServer_cases, createNewSchema_trace.
  destruct (loader_trace_quiet (REMOTE_SCHEMA_URIS env)) as (He & Hc & Hl).
  unfold stderr, constructed, listening in *.
  set (t := trace (createRemoteExecutableSchemas _)) in *. clearbody t.
  destruct (completion (createNewSchema _)) as [[schema|e|]|e|]; simpl;
    rewrite ?omap_app, ?He, ?Hc, ?Hl; try done.
  by destruct (listen _ _).
Qed.

(** C6. The list of upstream URIs holds the value of
    [GRAPHQL_CART_SERVICE_URI] at index 0, of
    [GRAPHQL_CHECKOUT_SERVICE_URI] at index 1 and of
    [GRAPHQL_USER_SERVICE_URI] at index 2, and nothing else; startup
    begins by introspecting the three of them in that order. *)
Theorem C6_uris_by_position (env : Env) :
  REMOTE_SCHEMA_URIS env !! 0 = Some (env !! "GRAPHQL_CART_SERVICE_URI") ∧
  REMOTE_SCHEMA_URIS env !! 1 = Some (env !! "GRAPHQL_CHECKOUT_SERVICE_URI") ∧
  REMOTE_SCHEMA_URIS env !! 2 = Some (env !! "GRAPHQL_USER_SERVICE_URI") ∧
  length (REMOTE_SCHEMA_URIS env) = 3 ∧
  ∃ rest,
    trace (main env) =
      [ Introspect {| uri := env !! "GRAPHQL_CART_SERVICE_URI"; fetch := node_fetch |} 0;
        Introspect {| uri := env !! "GRAPHQL_CHECKOUT_SERVICE_URI"; fetch := node_fetch |} 1;
        Introspect {| uri := env !! "GRAPHQL_USER_SERVICE_URI"; fetch := node_fetch |} 2 ]
      ++ rest.
Proof.
  repeat split.
  rewrite main_runServer. change (trace (?t, _)) with t.
  assert (∃ rest, trace (createNewSchema (REMOTE_SCHEMA_URIS env)) =
                    introspections (REMOTE_SCHEMA_URIS env) ++ rest) as [rest Hrest].
  { rewrite createNewSchema_trace, createRemoteExecutableSchemas_cases.
    destruct (promise_all _); simpl; eauto using app_nil_r. }
  rewrite runServer_cases, Hrest.
  destruct (completion (createNewSchema _)) as [[schema|e|]|e|];
    change (trace (?t, _)) with t; rewrite <-?app_assoc; by eexists.
Qed.

(** C7. Every server that startup constructs, or tells to listen, has
    introspection enabled and the playground disabled. *)
Theorem C7_introspection_on_playground_off (env : Env) (server : ApolloServer) :
  server ∈ constructed (trace (main env)) ∨ server ∈ listening (trace (main env)) →
  a_introspection server = true ∧ a_playground server = false.
Proof.
  destruct (main_observations env) as (_ & Hc & ->). rewrite Hc.
  intros Hin. assert (∃ schema, server = gateway_server schema) as [schema ->].
  { destruct (completion (createNewSchema _)) as [[schema|e|]|e|];
      destruct Hin as [Hin|Hin]; try (by apply elem_of_nil in Hin);
      apply list_elem_of_singleton in Hin; eauto. }
  done.
Qed.

(** Whatever the libraries do and whatever the configuration is, the
    program writes nothing to standard error. *)
Lemma main_never_logs_an_error (env : Env) : stderr (trace (main env)) = [].
Proof. apply main_observations. Qed.

End Properties.

(** * Runs on the test doubles *)

Lemma C2_witness :
  Doubles.uris !! 1 = Some (Some "http://checkout/graphql") ∧
  @createRemoteExecutableSchemas Doubles.domain Doubles.checkout_down Doubles.uris =
    (@introspections Doubles.domain Doubles.uris ++
       [@ConsoleLog Doubles.domain "Error creating remote executable schemas"],
     Normal (Fulfilled None)).
Proof.
  split; [reflexivity|].
  apply (@C2_failed_introspection_gives_undefined Doubles.domain Doubles.checkout_down
           Doubles.uris 1 (Some "http://checkout/graphql") (Raised "ECONNREFUSED"));
    reflexivity.
Defined.


Lemma C4_witness :
  ∃ proxies,
    @createRemoteExecutableSchemas Doubles.domain Doubles.all_up Doubles.uris =
      (@introspections Doubles.domain Doubles.uris, Normal (Fulfilled (Some proxies))) ∧
    length proxies = length Doubles.uris ∧
    ∀ i u, Doubles.uris !! i = Some u →
      ∃ proxy, proxies !! i = Some proxy ∧
        @remote_link Doubles.domain proxy = Some {| uri := u; fetch := node_fetch |} ∧
        @introspectSchema Doubles.domain Doubles.all_up {| uri := u; fetch := node_fetch |} i =
          Fulfilled (@remote_schema Doubles.domain proxy).
Proof.
  apply (@C4_proxy_schemas_follow_uris Doubles.domain Doubles.all_up Doubles.uris).
  intros [|[|[|i]]] u [= <-]; eexists; reflexivity.
Defined.


Lemma C7_witness :
  let server :=
    @gateway_server Doubles.domain
      [ "schema of http://cart/graphql"; "schema of http://checkout/graphql";
        "schema of http://user/graphql"; "link type defs" ] in
  constructed (trace (@main Doubles.domain Doubles.all_up Doubles.env)) = [server] ∧
  @a_introspection Doubles.domain server = true ∧
  @a_playground Doubles.domain server = false.
Proof.
  intros server. split; [reflexivity|].
  apply (@C7_introspection_on_playground_off Doubles.domain Doubles.all_up Doubles.env).
  left. vm_compute. left.
Defined.


Lemma C10_witness :
  REMOTE_SCHEMA_URIS Doubles.env_incomplete !! 0 = Some None ∧
  trace (@createRemoteExecutableSchemas Doubles.domain Doubles.all_up
           (REMOTE_SCHEMA_URIS Doubles.env_incomplete)) !! 0 =
    Some (@Introspect Doubles.domain {| uri := None; fetch := node_fetch |} 0) ∧
  (∃ promise,
     completion (@createRemoteExecutableSchemas Doubles.domain Doubles.all_up
                   (REMOTE_SCHEMA_URIS Doubles.env_incomplete)) =
       Normal promise) ∧
  ∀ j msg,
    trace (@createRemoteExecutableSchemas Doubles.domain Doubles.all_up
             (REMOTE_SCHEMA_URIS Doubles.env_incomplete)) !! j =
      Some (ConsoleLog msg) →
    length (REMOTE_SCHEMA_URIS Doubles.env_incomplete) ≤ j.
Proof.
  split; [reflexivity|].
  apply (@C10_no_validation_of_uris Doubles.domain Doubles.all_up
           (REMOTE_SCHEMA_URIS Doubles.env_incomplete) 0 None).
  reflexivity.
Defined.

(** C3. A run in which the merge of the schemas fails, and a run in which
    one upstream is down.  In both the error ends as the rejection of the
    promise that [runServer] returns; the call [runServer()] itself
    completes normally, the [catch] block of the top level is not entered,
    nothing is written to standard error, and no server listens. *)
Theorem C3_startup_error_escapes_the_handler :
  (completion (@runServer Doubles.domain Doubles.merge_conflict Doubles.env) =
     Normal (Rejected (Raised "schema merge failure")) ∧
   @main Doubles.domain Doubles.merge_conflict Doubles.env =
     (@introspections Doubles.domain Doubles.uris, Normal ()) ∧
   stderr (trace (@main Doubles.domain Doubles.merge_conflict Doubles.env)) = [] ∧
   listening (trace (@main Doubles.domain Doubles.merge_conflict Doubles.env)) = []) ∧
  (completion (@runServer Doubles.domain Doubles.checkout_down Doubles.env) =
     Normal (Rejected TypeError) ∧
   @main Doubles.domain Doubles.checkout_down Doubles.env =
     (@introspections Doubles.domain Doubles.uris ++
        [@ConsoleLog Doubles.domain "Error creating remote executable schemas"],
      Normal ()) ∧
   stderr (trace (@main Doubles.domain Doubles.checkout_down Doubles.env)) = [] ∧
   listening (trace (@main Doubles.domain Doubles.checkout_down Doubles.env)) = []).
Proof. repeat split; vm_compute; reflexivity. Qed.

(** * Further properties of the program *)

Section Further.
Context `{Library}.

(** ** More on [Promise.all] *)

Lemma first_rejection_elem {A} (ps : list (Promise A)) (e : Exn) :
  first_rejection ps = Some e → Rejected e ∈ ps.
Proof.
  induction ps as [|p ps IH]; [done|].
  destruct p; simpl; intros Hf.
  - right. by apply IH.
  - injection Hf as ->. left.
  - right. by apply IH.
Qed.

Lemma promise_all_Rejected_inv {A} (ps : list (Promise A)) (e : Exn) :
  promise_all ps = Rejected e → Rejected e ∈ ps.
Proof.
  unfold promise_all. destruct (first_rejection ps) as [e'|] eqn:Hf.
  - intros [= <-]. by apply first_rejection_elem.
  - by destruct (mapM fulfilled_value ps).
Qed.

Lemma promise_all_pending {A} (ps : list (Promise A)) :
  (∀ e, Rejected e ∉ ps) → Pending ∈ ps → promise_all ps = Pending.
Proof.
  intros Hnone Hpending. unfold promise_all.
  destruct (first_rejection ps) as [e|] eqn:Hf.
  - by apply first_rejection_elem, Hnone in Hf.
  - rewrite (mapM_None_2 fulfilled_value ps); [done|].
    apply Exists_exists. by exists Pending.
Qed.

Lemma promise_all_Pending_inv {A} (ps : list (Promise A)) :
  promise_all ps = Pending → (∀ e, Rejected e ∉ ps) ∧ Pending ∈ ps.
Proof.
  unfold promise_all. destruct (first_rejection ps) as [e|] eqn:Hf; [done|].
  destruct (mapM fulfilled_value ps) eqn:Hm; [done|]. intros _. split.
  - intros e [e' He']%first_rejection_Some. congruence.
  - apply mapM_None_1, Exists_exists in Hm as (p & Hp & Hnone).
    destruct p as [a|e|]; [done| |done].
    apply first_rejection_Some in Hp as [e' He']. congruence.
Qed.

(** ** The remote schema loader, by the outcome of the introspections *)

Lemma introspection_promises_elem (uris : list (option string)) (p : Promise Schema) :
  p ∈ introspection_promises uris ↔
  ∃ i u, uris !! i = Some u ∧ introspectSchema (link_of u) i = p.
Proof.
  rewrite list_elem_of_lookup. unfold introspection_promises. split.
  - intros [i Hi]. rewrite list_lookup_imap in Hi.
    destruct (uris !! i) as [u|] eqn:Hu; [|done]. injection Hi as Hi. eauto.
  - intros (i & u & Hu & Hp). exists i. by rewrite list_lookup_imap, Hu, <-Hp.
Qed.

(** The loader returns [undefined] exactly when the introspection of some
    upstream is rejected. *)
Theorem loader_undefined_iff_rejected (uris : list (option string)) :
  completion (createRemoteExecutableSchemas uris) = Normal (Fulfilled None) ↔
  ∃ i u e, uris !! i = Some u ∧ introspectSchema (link_of u) i = Rejected e.
Proof.
  rewrite createRemoteExecutableSchemas_cases. split.
  - destruct (promise_all (introspection_promises uris)) as [ss|e|] eqn:Hall;
      simpl; intros Hc; try done.
    apply promise_all_Rejected_inv, introspection_promises_elem in Hall
      as (i & u & Hu & Hp). eauto.
  - intros (i & u & e & Hu & Hp).
    destruct (promise_all_rejected (introspection_promises uris) e) as [e' ->]; [|done].
    apply introspection_promises_elem. eauto.
Qed.

(** The loader returns a list exactly when the introspection of every
    upstream is fulfilled. *)
Theorem loader_list_iff_all_fulfilled (uris : list (option string)) :
  (∃ proxies, completion (createRemoteExecutableSchemas uris) =
                Normal (Fulfilled (Some proxies))) ↔
  ∀ i u, uris !! i = Some u → ∃ s, introspectSchema (link_of u) i = Fulfilled s.
Proof.
  rewrite createRemoteExecutableSchemas_cases. split.
  - destruct (promise_all (introspection_promises uris)) as [ss|e|] eqn:Hall;
      simpl; intros [proxies Hc]; try done.
    apply promise_all_Fulfilled_inv in Hall. intros i u Hu.
    pose proof (introspection_promises_lookup uris i u Hu) as Hp.
    rewrite Hall, list_lookup_fmap in Hp.
    destruct (ss !! i) as [s|]; [|done]. injection Hp as <-. eauto.
  - intros Hok. destruct (all_fulfilled_fmap (introspection_promises uris)) as [ss ->].
    { intros p (i & u & Hu & <-)%introspection_promises_elem. eauto. }
    rewrite promise_all_fmap_Fulfilled. simpl. eauto.
Qed.

(** There is no timeout: when no introspection is rejected and one never
    settles, the promise of the loader never settles either, and the
    loader logs nothing. *)
Theorem loader_waits_for_ever (uris : list (option string)) (i : nat) (u : option string) :
  (∀ j v e, uris !! j = Some v → introspectSchema (link_of v) j ≠ Rejected e) →
  uris !! i = Some u →
  introspectSchema (link_of u) i = Pending →
  createRemoteExecutableSchemas uris = (introspections uris, Normal Pending).
Proof.
  intros Hnone Hu Hp. rewrite createRemoteExecutableSchemas_cases.
  rewrite promise_all_pending; [done| |].
  - intros e (j & v & Hv & Hr)%introspection_promises_elem. by eapply Hnone.
  - apply introspection_promises_elem. eauto.
Qed.

(** ** The merge *)

(** The three ways a call of [createNewSchema] ends, by the outcome of
    [Promise.all]. *)
Lemma createNewSchema_cases (uris : list (option string)) :
  createNewSchema uris =
  match promise_all (introspection_promises uris) with
  | Fulfilled remoteSchemas =>
      let proxies := imap (λ index schema,
        {| remote_schema := schema;
           remote_link := (link_of <$> uris) !! index |}) remoteSchemas in
      (introspections uris,
       Normal match mergeSchemas
                      {| m_schemas := (inl <$> proxies) ++ [inr linkTypeDefs];
                         m_resolvers := createLinkResolvers proxies |} with
              | inl e => Rejected e
              | inr schema => Fulfilled schema
              end)
  | Rejected _ =>
      (introspections uris ++ [ConsoleLog error_creating_schemas],
       Normal (Rejected TypeError))
  | Pending => (introspections uris, Normal Pending)
  end.
Proof.
  unfold createNewSchema. rewrite createRemoteExecutableSchemas_cases.
  set (t := introspections uris). clearbody t.
  destruct (promise_all (introspection_promises uris)) as [ss|e|];
    unfold async; rewrite bind_normal; simpl; rewrite ?app_nil_r; try done.
  unfold call_mergeSchemas. by destruct (mergeSchemas _); simpl; rewrite app_nil_r.
Qed.

Lemma all_fulfilled_schemas (uris : list (option string)) :
  (∀ i u, uris !! i = Some u → ∃ s, introspectSchema (link_of u) i = Fulfilled s) →
  ∃ ss, promise_all (introspection_promises uris) = Fulfilled ss ∧
    length ss = length uris ∧
    ∀ i u, uris !! i = Some u →
      ∃ s, ss !! i = Some s ∧ introspectSchema (link_of u) i = Fulfilled s.
Proof.
  intros Hok. destruct (all_fulfilled_fmap (introspection_promises uris)) as [ss Hss].
  { intros p (i & u & Hu & <-)%introspection_promises_elem. eauto. }
  exists ss. split; [by rewrite Hss, promise_all_fmap_Fulfilled|]. split.
  - rewrite <-(length_fmap Fulfilled ss), <-Hss. apply length_introspection_promises.
  - intros i u Hu. pose proof (introspection_promises_lookup uris i u Hu) as Hp.
    rewrite Hss, list_lookup_fmap in Hp.
    destruct (ss !! i) as [s|]; [|done]. injection Hp as Hp. eauto.
Qed.

(** When the introspection of an upstream fails, the promise of
    [createNewSchema] is rejected with a [TypeError], whatever the error of
    the introspection was and whatever [mergeSchemas] would do: the error
    of the upstream is lost. *)
Theorem createNewSchema_loses_the_error
    (uris : list (option string)) (i : nat) (u : option string) (e : Exn) :
  uris !! i = Some u →
  introspectSchema (link_of u) i = Rejected e →
  createNewSchema uris =
    (introspections uris ++ [ConsoleLog "Error creating remote executable schemas"],
     Normal (Rejected TypeError)).
Proof.
  intros Hu Hrej. rewrite createNewSchema_cases.
  destruct (promise_all_rejected (introspection_promises uris) e) as [e' ->]; [|done].
  apply introspection_promises_elem. eauto.
Qed.

(** When every introspection succeeds, [mergeSchemas] is called once, on
    the list the loader returned, one proxy schema for each URI in the
    order of the URIs, followed by the link type definitions, and on the
    link resolvers built over that same list; the promise of
    [createNewSchema] carries what [mergeSchemas] returned or threw, and
    nothing is logged. *)
Theorem createNewSchema_merges_in_order (uris : list (option string)) :
  (∀ i u, uris !! i = Some u → ∃ s, introspectSchema (link_of u) i = Fulfilled s) →
  ∃ proxies : list ProxySchema,
    completion (createRemoteExecutableSchemas uris) =
      Normal (Fulfilled (Some proxies)) ∧
    length proxies = length uris ∧
    (∀ i u, uris !! i = Some u →
       ∃ proxy, proxies !! i = Some proxy ∧
         remote_link proxy = Some {| uri := u; fetch := node_fetch |} ∧
         introspectSchema {| uri := u; fetch := node_fetch |} i =
           Fulfilled (remote_schema proxy)) ∧
    createNewSchema uris =
      (introspections uris,
       Normal match mergeSchemas
                      {| m_schemas := (inl <$> proxies) ++ [inr linkTypeDefs];
                         m_resolvers := createLinkResolvers proxies |} with
              | inl e => Rejected e
              | inr schema => Fulfilled schema
              end).
Proof.
  intros Hok. destruct (all_fulfilled_schemas uris Hok) as (ss & Hall & Hlen & Hss).
  eexists. split; [by rewrite createRemoteExecutableSchemas_cases, Hall|].
  split; [by rewrite length_imap|]. split.
  - intros i u Hu. destruct (Hss i u Hu) as (s & Hs & Hi).
    eexists. split; [by rewrite list_lookup_imap, Hs|]. simpl.
    by rewrite list_lookup_fmap, Hu.
  - by rewrite createNewSchema_cases, Hall.
Qed.

(** ** The link resolvers *)

(** The resolver map defines [User.cart] and [User.orders] and no other
    field of any type. *)
Theorem link_resolvers_are_cart_and_orders
    (schemas : list ProxySchema) (type field : string) :
  is_Some (link_resolver (createLinkResolvers schemas) type field) ↔
  type = "User" ∧ (field = "cart" ∨ field = "orders").
Proof.
  split.
  - intros [r Hr]. by eapply link_resolver_inv.
  - intros [-> [-> | ->]].
    + destruct (link_resolver_cart schemas) as (cart & -> & _). by eexists.
    + destruct (link_resolver_orders schemas) as (orders & -> & _). by eexists.
Qed.

(** Only the first two proxy schemas matter to the link resolvers: the
    schema at index 2, the user service, and any later one is never a
    delegation target. *)
Theorem link_resolvers_use_two_schemas (schemas : list ProxySchema) :
  createLinkResolvers schemas = createLinkResolvers (take 2 schemas).
Proof.
  unfold createLinkResolvers.
  by rewrite !(lookup_take_lt schemas 2) by lia.
Qed.

(** ** Startup *)

Lemma main_trace (env : Env) :
  main env =
  (trace (createNewSchema (REMOTE_SCHEMA_URIS env)) ++
     match completion (createNewSchema (REMOTE_SCHEMA_URIS env)) with
     | Normal (Fulfilled schema) =>
         [Construct (gateway_server schema);
          Listen (gateway_server schema) (env !! "PORT")] ++
         match listen (gateway_server schema) (env !! "PORT") with
         | Fulfilled url => [ConsoleLog ("Eagles soaring high at " +:+ url)]
         | _ => []
         end
     | _ => []
     end,
   Normal ()).
Proof.
  rewrite main_runServer, runServer_cases.
  set (t := trace (createNewSchema _)).
  by destruct (completion (createNewSchema _)) as [[schema|e|]|e|];
    unfold trace at 1; simpl; rewrite ?app_nil_r.
Qed.

Lemma not_listen_in_loader (uris : list (option string)) (server : ApolloServer)
    (port : option string) :
  Listen server port ∉ trace (createRemoteExecutableSchemas uris).
Proof.
  intros Hin. destruct (loader_trace_quiet uris) as (_ & _ & Hl).
  assert (server ∈ listening (trace (createRemoteExecutableSchemas uris))) as Hs.
  { apply list_elem_of_omap. by exists (Listen server port). }
  rewrite Hl in Hs. by apply elem_of_nil in Hs.
Qed.

Lemma stdout_introspections (uris : list (option string)) :
  stdout (introspections uris) = [].
Proof.
  apply omap_none. by intros i ev [link ->]%introspections_shape.
Qed.

(** A server listens only once the schemas are merged: the program tells
    a server to listen exactly when the promise of [createNewSchema] is
    fulfilled, and then it is the server constructed from that schema, on
    the port [process.env.PORT]. *)
Theorem listens_iff_schema_merged (env : Env) (server : ApolloServer)
    (port : option string) :
  Listen server port ∈ trace (main env) ↔
  port = env !! "PORT" ∧
  ∃ schema,
    completion (createNewSchema (REMOTE_SCHEMA_URIS env)) = Normal (Fulfilled schema) ∧
    server = {| a_schema := schema; a_introspection := true; a_playground := false |}.
Proof.
  rewrite main_trace. change (trace (?t, _)) with t.
  rewrite elem_of_app, createNewSchema_trace. split.
  - intros [Hin|Hin]; [by apply not_listen_in_loader in Hin|].
    destruct (completion (createNewSchema _)) as [[schema|e|]|e|];
      try (by apply elem_of_nil in Hin).
    apply elem_of_cons in Hin as [|Hin]; [done|].
    apply elem_of_cons in Hin as [[= -> ->]|Hin]; [by eauto|].
    destruct (listen _ _); [|by apply elem_of_nil in Hin..].
    by apply list_elem_of_singleton in Hin.
  - intros (-> & schema & -> & ->). right. right. left.
Qed.

(** Once the schemas are merged, [runServer] constructs the server, tells
    it to listen and is done: its promise is fulfilled whatever becomes of
    the promise of [listen].  The start-up line is logged only if that
    promise is fulfilled; its rejection is neither logged nor passed on. *)
Theorem startup_after_merge (env : Env) (schema : Unified) :
  completion (createNewSchema (REMOTE_SCHEMA_URIS env)) = Normal (Fulfilled schema) →
  let server := {| a_schema := schema; a_introspection := true; a_playground := false |} in
  main env =
    (introspections (REMOTE_SCHEMA_URIS env) ++
       [Construct server; Listen server (env !! "PORT")] ++
       match listen server (env !! "PORT") with
       | Fulfilled url => [ConsoleLog ("Eagles soaring high at " +:+ url)]
       | _ => []
       end,
     Normal ()) ∧
  completion (runServer env) = Normal (Fulfilled ()).
Proof.
  intros Hc server. rewrite main_trace, runServer_cases, Hc. split; [|done].
  assert (trace (createNewSchema (REMOTE_SCHEMA_URIS env)) =
          introspections (REMOTE_SCHEMA_URIS env)) as ->; [|done].
  revert Hc. rewrite createNewSchema_cases.
  by destruct (promise_all _).
Qed.

(** When the introspection of an upstream fails, all that startup shows
    is the fixed message: the promise of [runServer] is rejected with a
    [TypeError], and nothing else is logged. *)
Theorem startup_with_upstream_down (env : Env) (i : nat) (u : option string) (e : Exn) :
  REMOTE_SCHEMA_URIS env !! i = Some u →
  introspectSchema (link_of u) i = Rejected e →
  main env =
    (introspections (REMOTE_SCHEMA_URIS env) ++
       [ConsoleLog "Error creating remote executable schemas"],
     Normal ()) ∧
  completion (runServer env) = Normal (Rejected TypeError).
Proof.
  intros Hu Hrej.
  assert (createNewSchema (REMOTE_SCHEMA_URIS env) =
            (introspections (REMOTE_SCHEMA_URIS env) ++
               [ConsoleLog error_creating_schemas], Normal (Rejected TypeError))) as Hn.
  { rewrite createNewSchema_cases.
    destruct (promise_all_rejected (introspection_promises (REMOTE_SCHEMA_URIS env)) e)
      as [e' ->]; [|done].
    apply introspection_promises_elem. eauto. }
  rewrite main_trace, runServer_cases, Hn. split; [|done].
  unfold trace, completion. simpl. by rewrite ?app_nil_r.
Qed.

(** When no introspection fails and one upstream never answers, startup
    issues the three introspection calls and nothing more: no line is
    logged, no server is constructed, and the promise of [runServer] never
    settles. *)
Theorem startup_waits_for_ever (env : Env) (i : nat) (u : option string) :
  (∀ j v e, REMOTE_SCHEMA_URIS env !! j = Some v →
            introspectSchema (link_of v) j ≠ Rejected e) →
  REMOTE_SCHEMA_URIS env !! i = Some u →
  introspectSchema (link_of u) i = Pending →
  main env = (introspections (REMOTE_SCHEMA_URIS env), Normal ()) ∧
  completion (runServer env) = Normal Pending.
Proof.
  intros Hnone Hu Hp.
  assert (createNewSchema (REMOTE_SCHEMA_URIS env) =
            (introspections (REMOTE_SCHEMA_URIS env), Normal Pending)) as Hn.
  { rewrite createNewSchema_cases, promise_all_pending; [done| |].
    - intros e (j & v & Hv & Hr)%introspection_promises_elem. by eapply Hnone.
    - apply introspection_promises_elem. eauto. }
  rewrite main_trace, runServer_cases, Hn. split; [|done].
  unfold trace, completion. simpl. by rewrite ?app_nil_r.
Qed.

(** Startup logs at most one line: the fixed message when the loader
    returned [undefined], or the start-up line, with the url that
    [listen] delivered, when the schemas were merged. *)
Theorem startup_logs_at_most_one_line (env : Env) :
  length (stdout (trace (main env))) ≤ 1 ∧
  ∀ msg, msg ∈ stdout (trace (main env)) →
    (msg = "Error creating remote executable schemas" ∧
     completion (createRemoteExecutableSchemas (REMOTE_SCHEMA_URIS env)) =
       Normal (Fulfilled None)) ∨
    (∃ schema url,
       completion (createNewSchema (REMOTE_SCHEMA_URIS env)) = Normal (Fulfilled schema) ∧
       listen {| a_schema := schema; a_introspection := true; a_playground := false |}
              (env !! "PORT") = Fulfilled url ∧
       msg = "Eagles soaring high at " +:+ url).
Proof.
  rewrite main_trace. change (trace (?t, _)) with t.
  unfold stdout. rewrite omap_app. fold (stdout (trace (createNewSchema (REMOTE_SCHEMA_URIS env)))).
  rewrite createNewSchema_trace, createNewSchema_cases, createRemoteExecutableSchemas_cases.
  pose proof (stdout_introspections (REMOTE_SCHEMA_URIS env)) as Hq.
  destruct (promise_all (introspection_promises (REMOTE_SCHEMA_URIS env))) as [ss|e|].
  - cbv zeta. change (trace (?t, _)) with t. rewrite Hq.
    change (completion (_, ?c)) with c.
    match goal with
    | |- context [mergeSchemas ?o] => destruct (mergeSchemas o) as [e|schema]
    end.
    + split; [simpl; lia|]. intros msg Hin. by apply elem_of_nil in Hin.
    + unfold gateway_server. destruct (listen _ _) as [url|e|] eqn:Hl.
      * split; [simpl; lia|]. intros msg ->%list_elem_of_singleton.
        right. by exists schema, url.
      * split; [simpl; lia|]. intros msg Hin. by apply elem_of_nil in Hin.
      * split; [simpl; lia|]. intros msg Hin. by apply elem_of_nil in Hin.
  - change (trace (?t, _)) with t. unfold stdout in *. rewrite omap_app, Hq.
    split; [simpl; lia|]. intros msg ->%list_elem_of_singleton. by left.
  - change (trace (?t, _)) with t. rewrite Hq.
    split; [simpl; lia|]. intros msg Hin. by apply elem_of_nil in Hin.
Qed.

(** At startup, when every introspection succeeds, the resolver map
    handed to [mergeSchemas] sends [User.cart] to a proxy schema over the
    link of [GRAPHQL_CART_SERVICE_URI] and [User.orders] to a proxy schema
    over the link of [GRAPHQL_CHECKOUT_SERVICE_URI]. *)
Theorem startup_links_follow_configuration (env : Env) :
  (∀ i u, REMOTE_SCHEMA_URIS env !! i = Some u →
          ∃ s, introspectSchema (link_of u) i = Fulfilled s) →
  ∃ (opts : MergeOptions) (cart orders : LinkResolver) (cart_schema orders_schema : ProxySchema),
    completion (createNewSchema (REMOTE_SCHEMA_URIS env)) =
      Normal match mergeSchemas opts with
             | inl e => Rejected e
             | inr schema => Fulfilled schema
             end ∧
    link_resolver (m_resolvers opts) "User" "cart" = Some cart ∧
    link_resolver (m_resolvers opts) "User" "orders" = Some orders ∧
    remote_link cart_schema =
      Some {| uri := env !! "GRAPHQL_CART_SERVICE_URI"; fetch := node_fetch |} ∧
    remote_link orders_schema =
      Some {| uri := env !! "GRAPHQL_CHECKOUT_SERVICE_URI"; fetch := node_fetch |} ∧
    ∀ parent args context info,
      d_schema ∘ snd <$> delegated (trace (resolve cart parent args context info)) =
        [Some cart_schema] ∧
      d_schema ∘ snd <$> delegated (trace (resolve orders parent args context info)) =
        [Some orders_schema].
Proof.
  intros Hok.
  destruct (all_fulfilled_schemas _ Hok) as (ss & Hall & Hlen & _).
  destruct ss as [|s0 [|s1 [|s2 [|s3 ss]]]]; try done.
  eexists _, _, _,
    {| remote_schema := s0;
       remote_link := Some (link_of (env !! "GRAPHQL_CART_SERVICE_URI")) |},
    {| remote_schema := s1;
       remote_link := Some (link_of (env !! "GRAPHQL_CHECKOUT_SERVICE_URI")) |}.
  rewrite createNewSchema_cases, Hall.
  split; [reflexivity|]. simpl.
  split; [reflexivity|]. split; [reflexivity|].
  split; [reflexivity|]. split; [reflexivity|].
  intros parent args context info. split; reflexivity.
Qed.

End Further.

(** * Further runs on the test doubles *)

Lemma loader_waits_for_ever_witness :
  @createRemoteExecutableSchemas Doubles.domain Doubles.user_never_answers Doubles.uris =
    (@introspections Doubles.domain Doubles.uris, Normal Pending).
Proof.
  apply (@loader_waits_for_ever Doubles.domain Doubles.user_never_answers
           Doubles.uris 2 (Some "http://user/graphql")).
  - intros [|[|[|j]]] v e [= <-]; vm_compute; discriminate.
  - reflexivity.
  - reflexivity.
Defined.

Lemma createNewSchema_loses_the_error_witness :
  @createNewSchema Doubles.domain Doubles.checkout_down Doubles.uris =
    (@introspections Doubles.domain Doubles.uris ++
       [@ConsoleLog Doubles.domain "Error creating remote executable schemas"],
     Normal (Rejected TypeError)).
Proof.
  apply (@createNewSchema_loses_the_error Doubles.domain Doubles.checkout_down
           Doubles.uris 1 (Some "http://checkout/graphql") (Raised "ECONNREFUSED"));
    reflexivity.
Defined.

Lemma createNewSchema_merges_in_order_witness :
  ∃ proxies : list (@ProxySchema Doubles.domain),
    completion (@createRemoteExecutableSchemas Doubles.domain Doubles.all_up Doubles.uris) =
      Normal (Fulfilled (Some proxies)) ∧
    length proxies = length Doubles.uris ∧
    (∀ i u, Doubles.uris !! i = Some u →
       ∃ proxy, proxies !! i = Some proxy ∧
         @remote_link Doubles.domain proxy = Some {| uri := u; fetch := node_fetch |} ∧
         @introspectSchema Doubles.domain Doubles.all_up
           {| uri := u; fetch := node_fetch |} i =
           Fulfilled (@remote_schema Doubles.domain proxy)) ∧
    @createNewSchema Doubles.domain Doubles.all_up Doubles.uris =
      (@introspections Doubles.domain Doubles.uris,
       Normal match @mergeSchemas Doubles.domain Doubles.all_up
                      {| m_schemas := (inl <$> proxies) ++ [inr linkTypeDefs];
                         m_resolvers :=
                           @createLinkResolvers Doubles.domain Doubles.all_up proxies |} with
              | inl e => Rejected e
              | inr schema => Fulfilled schema
              end).
Proof.
  apply (@createNewSchema_merges_in_order Doubles.domain Doubles.all_up Doubles.uris).
  intros [|[|[|i]]] u [= <-]; eexists; reflexivity.
Defined.

Lemma startup_after_merge_witness :
  let server :=
    @gateway_server Doubles.domain
      [ "schema of http://cart/graphql"; "schema of http://checkout/graphql";
        "schema of http://user/graphql"; "link type defs" ] in
  @main Doubles.domain Doubles.port_in_use Doubles.env =
    (@introspections Doubles.domain Doubles.uris ++
       [Construct server; Listen server (Some "8080")],
     Normal ()) ∧
  completion (@runServer Doubles.domain Doubles.port_in_use Doubles.env) =
    Normal (Fulfilled ()).
Proof.
  intros server.
  apply (@startup_after_merge Doubles.domain Doubles.port_in_use Doubles.env
           (@a_schema Doubles.domain server)).
  reflexivity.
Defined.

Lemma startup_with_upstream_down_witness :
  @main Doubles.domain Doubles.checkout_down Doubles.env =
    (@introspections Doubles.domain (REMOTE_SCHEMA_URIS Doubles.env) ++
       [@ConsoleLog Doubles.domain "Error creating remote executable schemas"],
     Normal ()) ∧
  completion (@runServer Doubles.domain Doubles.checkout_down Doubles.env) =
    Normal (Rejected TypeError).
Proof.
  apply (@startup_with_upstream_down Doubles.domain Doubles.checkout_down Doubles.env
           1 (Some "http://checkout/graphql") (Raised "ECONNREFUSED"));
    reflexivity.
Defined.

Lemma startup_waits_for_ever_witness :
  @main Doubles.domain Doubles.user_never_answers Doubles.env =
    (@introspections Doubles.domain (REMOTE_SCHEMA_URIS Doubles.env), Normal ()) ∧
  completion (@runServer Doubles.domain Doubles.user_never_answers Doubles.env) =
    Normal Pending.
Proof.
  apply (@startup_waits_for_ever Doubles.domain Doubles.user_never_answers Doubles.env
           2 (Some "http://user/graphql")).
  - intros [|[|[|j]]] v e [= <-]; vm_compute; discriminate.
  - reflexivity.
  - reflexivity.
Defined.

Lemma startup_links_follow_configuration_witness :
  ∃ (opts : @MergeOptions Doubles.domain) (cart orders : @LinkResolver Doubles.domain)
    (cart_schema orders_schema : @ProxySchema Doubles.domain),
    completion (@createNewSchema Doubles.domain Doubles.all_up
                  (REMOTE_SCHEMA_URIS Doubles.env)) =
      Normal match @mergeSchemas Doubles.domain Doubles.all_up opts with
             | inl e => Rejected e
             | inr schema => Fulfilled schema
             end ∧
    link_resolver (@m_resolvers Doubles.domain opts) "User" "cart" = Some cart ∧
    link_resolver (@m_resolvers Doubles.domain opts) "User" "orders" = Some orders ∧
    @remote_link Doubles.domain cart_schema =
      Some {| uri := Doubles.env !! "GRAPHQL_CART_SERVICE_URI"; fetch := node_fetch |} ∧
    @remote_link Doubles.domain orders_schema =
      Some {| uri := Doubles.env !! "GRAPHQL_CHECKOUT_SERVICE_URI"; fetch := node_fetch |} ∧
    ∀ parent args context info,
      @d_schema Doubles.domain ∘ snd <$>
        delegated (trace (@resolve Doubles.domain cart parent args context info)) =
        [Some cart_schema] ∧
      @d_schema Doubles.domain ∘ snd <$>
        delegated (trace (@resolve Doubles.domain orders parent args context info)) =
        [Some orders_schema].
Proof.
  apply (@startup_links_follow_configuration Doubles.domain Doubles.all_up Doubles.env).
  intros [|[|[|i]]] u [= <-]; eexists; reflexivity.
Defined.
